(** * Miscalibration error: the two procedures of [miscalibration_error.ipynb]

    [KullbackLeiblerDivergence] (the divergence scorer) and
    [ComputeGenreDistribution] (the category-distribution aggregator).

    Numbers.  The notebook computes on NumPy [float64] values: the
    aggregator returns a NumPy array and the scorer is fed such arrays.  A
    number is modelled here as an exact real; a result that is [inf],
    [-inf] or [nan] is the single value [NonFinite].  Rounding is outside
    that model: where a statement depends on it, the scorer's arithmetic
    is also given on binary64 numbers (Rocq's primitive floats), with
    [np.log2], a library function, as a parameter.

    Arrays.  The scorer assigns into [recommendedDist], an object owned by
    its caller, so arrays live in a store addressed by references and the
    scorer is a computation in a state-and-exception monad over that store.
    Passing the same object twice is passing the same reference twice. *)

From Stdlib Require Import Reals Lra Lia ZArith.
From stdpp Require Import gmap list.
From Stdlib Require Floats.

Set Warnings "-inexact-float".

(** ** Numbers *)

Inductive float : Type :=
  | Finite (r : R)
  | NonFinite.

#[global] Instance R_eq_dec : EqDecision R := Req_dec_T.
#[global] Instance Rlt_decision (x y : R) : Decision (x < y)%R := Rlt_dec x y.

(** [a + b] on results: any non-finite operand gives a non-finite sum. *)
Definition fadd (a b : float) : float :=
  match a, b with
  | Finite x, Finite y => Finite (x + y)
  | _, _ => NonFinite
  end.

(** [a * b] for an array entry [a] and a result [b]. *)
Definition fmul (a : R) (b : float) : float :=
  match b with
  | Finite y => Finite (a * y)
  | NonFinite => NonFinite
  end.

(** [a / b] for two array entries: NumPy gives [inf] or [nan] when [b] is
    zero (and a RuntimeWarning), it does not raise. *)
Definition fdiv (a b : R) : float :=
  if decide (b = 0%R) then NonFinite else Finite (a / b).

(** [np.log2]: [-inf] at zero, [nan] below it, and non-finite on a
    non-finite argument. *)
Definition log2 (x : float) : float :=
  match x with
  | Finite r => if decide (0 < r)%R then Finite (ln r / ln 2) else NonFinite
  | NonFinite => NonFinite
  end.

(** ** The store of arrays, and computations over it *)

Definition loc := nat.

Abbreviation store := (gmap loc (list R)).

Inductive exn : Type :=
  | IndexError.

Inductive result (A : Type) : Type :=
  | Return (a : A)
  | Raise (e : exn).
Arguments Return {A} a.
Arguments Raise {A} e.

(** A computation reads and writes the store; what it wrote before an
    exception stays written. *)
Definition M (A : Type) : Type := store → result A * store.

#[global] Instance M_ret : MRet M := λ A a σ, (Return a, σ).

#[global] Instance M_bind : MBind M := λ A B f m σ,
  match m σ with
  | (Return a, σ') => f a σ'
  | (Raise e, σ') => (Raise e, σ')
  end.

(** The array a reference denotes. *)
Definition deref (σ : store) (l : loc) : list R := default [] (σ !! l).

(** [len(a)] *)
Definition len (l : loc) : M nat := λ σ, (Return (length (deref σ l)), σ).

(** [a[i]] for [i >= 0] *)
Definition getitem (l : loc) (i : nat) : M R := λ σ,
  match deref σ l !! i with
  | Some x => (Return x, σ)
  | None => (Raise IndexError, σ)
  end.

(** [a[i] = v] for [i >= 0] *)
Definition setitem (l : loc) (i : nat) (v : R) : M unit := λ σ,
  if decide (i < length (deref σ l))
  then (Return tt, <[l := <[i := v]> (deref σ l)]> σ)
  else (Raise IndexError, σ).

(** [for i in ix: acc = body(i, acc)] *)
Fixpoint for_each {A : Type} (ix : list nat) (body : nat → A → M A) (acc : A) : M A :=
  match ix with
  | [] => mret acc
  | i :: ix' => acc' ← body i acc; for_each ix' body acc'
  end.

(** [range(n)] *)
Definition range (n : nat) : list nat := seq 0 n.

(** ** The divergence scorer *)

(** [alpha = 0.01] *)
Definition alpha : R := (1 / 100)%R.

(** One turn of the loop over the genres; [klDive] is the running sum. *)
Definition KL_body (interactDist recommendedDist : loc) (i : nat) (klDive : float) : M float :=
  p0 ← getitem interactDist i;
  if decide (p0 = 0%R) then mret klDive
  else
    q ← getitem recommendedDist i;
    p ← getitem interactDist i;
    setitem recommendedDist i ((1 - alpha) * q + alpha * p)%R;;
    p1 ← getitem interactDist i;
    p2 ← getitem interactDist i;
    q' ← getitem recommendedDist i;
    mret (fadd klDive (fmul p1 (log2 (fdiv p2 q')))).

Definition KullbackLeiblerDivergence (interactDist recommendedDist : loc) : M float :=
  n ← len interactDist;
  for_each (range n) (KL_body interactDist recommendedDist) (Finite 0).

(** ** The aggregator *)

(** The two-dimensional array [p_g_i_final], of shape
    [(length rows, ncols)]. *)
Record matrix : Type := { ncols : nat; rows : list (list R) }.

Definition wf_matrix (P : matrix) : Prop :=
  Forall (λ r, length r = ncols P) (rows P).

#[global] Instance result_ret : MRet result := λ A a, Return a.

#[global] Instance result_bind : MBind result := λ A B f m,
  match m with
  | Return a => f a
  | Raise e => Raise e
  end.

(** A NumPy integer index along an axis of extent [n]: a negative index
    counts from the end, anything outside [-n, n) raises. *)
Definition norm_index (n : nat) (i : Z) : result nat :=
  if decide (0 ≤ i < Z.of_nat n)%Z then Return (Z.to_nat i)
  else if decide (- Z.of_nat n ≤ i < 0)%Z then Return (Z.to_nat (Z.of_nat n + i))
  else Raise IndexError.

(** [P[i, :]] *)
Definition get_row (P : matrix) (i : Z) : result (list R) :=
  k ← norm_index (length (rows P)) i;
  match rows P !! k with
  | Some r => Return r
  | None => Raise IndexError
  end.

(** [P[itemList, :]]: one row per listed id, in order, repeats included. *)
Fixpoint take_rows (P : matrix) (itemList : list Z) : result (list (list R)) :=
  match itemList with
  | [] => Return []
  | i :: rest => r ← get_row P i; rs ← take_rows P rest; mret (r :: rs)
  end.

Definition vec_add (u v : list R) : list R := zip_with Rplus u v.

(** [a.sum(axis=0)] for a stack [rs] of rows of width [n]. *)
Definition sum_axis0 (n : nat) (rs : list (list R)) : list R :=
  foldl vec_add (replicate n 0%R) rs.

Definition ComputeGenreDistribution (itemList : list Z) (p_g_i_final : matrix)
  : result (list float) :=
  sel ← take_rows p_g_i_final itemList;
  mret (map (λ s, fdiv s (INR (length itemList))) (sum_axis0 (ncols p_g_i_final) sel)).

(** ** Vocabulary of the statements *)

Definition Rsum (l : list R) : R := foldr Rplus 0%R l.

(** A distribution: non-negative entries that sum to one. *)
Definition is_distribution (v : list R) : Prop :=
  Forall (λ x, 0 <= x)%R v ∧ Rsum v = 1%R.

(** An id that indexes a row of [P]. *)
Definition valid_item (P : matrix) (i : Z) : Prop :=
  (- Z.of_nat (length (rows P)) ≤ i < Z.of_nat (length (rows P)))%Z.

(** The row [P[i]] as a list (empty where there is no such row), and the
    cell [P[i][c]] as a number (zero where there is no such cell). *)
Definition row (P : matrix) (i : Z) : list R :=
  match get_row P i with
  | Return r => r
  | Raise _ => []
  end.





(** *** The scorer on two distinct arrays, seen on lists

    [smooth p q] is the value the loop assigns, [smoothed ps qs] what
    [recommendedDist] holds when the loop ends or raises, and
    [kl_sum ps qs acc] what the loop returns from the running sum [acc]. *)

Definition smooth (p q : R) : R := ((1 - alpha) * q + alpha * p)%R.

Definition term (p q' : R) : float := fmul p (log2 (fdiv p q')).

Fixpoint smoothed (ps qs : list R) : list R :=
  match ps, qs with
  | p :: ps', q :: qs' =>
      (if decide (p = 0%R) then q else smooth p q) :: smoothed ps' qs'
  | _, _ => qs
  end.

Fixpoint kl_sum (ps qs : list R) (acc : float) : result float :=
  match ps with
  | [] => Return acc
  | p :: ps' =>
      if decide (p = 0%R) then kl_sum ps' (tail qs) acc
      else match qs with
           | [] => Raise IndexError
           | q :: qs' => kl_sum ps' qs' (fadd acc (term p (smooth p q)))
           end
  end.

(** The real number [kl_sum] adds up when every term is finite. *)
Fixpoint kl_real (ps qs : list R) : R :=
  match ps, qs with
  | p :: ps', q :: qs' =>
      ((if decide (p = 0%R) then 0 else p * (ln (p / smooth p q) / ln 2))
       + kl_real ps' qs')%R
  | _, _ => 0%R
  end.

(** *** The scorer's arithmetic on binary64 numbers

    The same loop on two distinct arrays, seen on lists as [smoothed] and
    [kl_sum] are, with every operation the IEEE 754 binary64 one that
    NumPy performs.  [np_log2] stands for [np.log2]. *)

Section Binary64.
Import PrimFloat.
Variable np_log2 : float → float.

(** [alpha = 0.01] *)
Definition alpha64 : float := 0.01%float.

(** [(1 - alpha) * recommendedDist[i] + alpha * interactDist[i]] *)
Definition smooth64 (p q : float) : float :=
  ((1 - alpha64) * q + alpha64 * p)%float.

(** [interactDist[i] * np.log2(interactDist[i] / recommendedDist[i])] *)
Definition term64 (p q' : float) : float := (p * np_log2 (p / q'))%float.

(** What [recommendedDist] holds when the loop ends or raises. *)
Fixpoint smoothed64 (ps qs : list float) : list float :=
  match ps, qs with
  | p :: ps', q :: qs' =>
      (if (p =? 0)%float then q else smooth64 p q) :: smoothed64 ps' qs'
  | _, _ => qs
  end.

(** What the loop returns from the running sum [klDive]. *)
Fixpoint kl_sum64 (ps qs : list float) (klDive : float) : result float :=
  match ps with
  | [] => Return klDive
  | p :: ps' =>
      if (p =? 0)%float then kl_sum64 ps' (tail qs) klDive
      else match qs with
           | [] => Raise IndexError
           | q :: qs' => kl_sum64 ps' qs' (klDive + term64 p (smooth64 p q))%float
           end
  end.

(** An entry is zero, or smoothing it towards itself rounds back to it
    (and it is an ordinary number: [x / x] is [1] and [x * 0] is [0]). *)
Definition rounds_back (x : float) : Prop :=
  (x =? 0)%float = true
  ∨ (smooth64 x x = x ∧ (x / x)%float = 1%float ∧ (x * 0)%float = 0%float).
End Binary64.

(** Running a computation: its result, and the store it leaves. *)
Definition result_of {A} (m : M A) (σ : store) : result A := (m σ).1.
Definition store_after {A} (m : M A) (σ : store) : store := (m σ).2.

(** *** Stores used to run the scorer on given arrays

    [two_arrays p q] holds [p] at reference [0] and [q] at reference [1];
    [one_array p] holds [p] at reference [0] only, for a call that passes
    the same object twice. *)

Definition two_arrays (p q : list R) : store := <[0 := p]> {[1 := q]}.

Definition one_array (p : list R) : store := {[0 := p]}.

(** *** The matrix of the aggregator scenario

    Three items over nineteen genres, each row already divided by its
    sum: genres 3, 4, 5 for item 0; genres 1, 2, 16 for item 1; genre 7 for
    item 2. *)

Definition P_scenario : matrix :=
  {| ncols := 19;
     rows := [ [0; 0; 0; 1/3; 1/3; 1/3; 0; 0; 0; 0; 0; 0; 0; 0; 0; 0; 0; 0; 0];
               [0; 1/3; 1/3; 0; 0; 0; 0; 0; 0; 0; 0; 0; 0; 0; 0; 0; 1/3; 0; 0];
               [0; 0; 0; 0; 0; 0; 0; 1; 0; 0; 0; 0; 0; 0; 0; 0; 0; 0; 0] ]%R |}.

(** *** Vocabulary of the further properties *)

(** The store after [n] calls of the scorer in a row on the same two
    references. *)
Fixpoint score_repeatedly (n : nat) (ip rq : loc) (σ : store) : store :=
  match n with
  | 0 => σ
  | S n' => score_repeatedly n' ip rq
              (store_after (KullbackLeiblerDivergence ip rq) σ)
  end.

(** Decides the comparisons of concrete reals met when a run is unfolded. *)
Ltac real_decide :=
  repeat match goal with
    | |- context [decide (?a = ?b)] =>
        first [ rewrite (decide_True (P := a = b)) by (unfold smooth, alpha; lra)
              | rewrite (decide_False (P := a = b)) by (unfold smooth, alpha; lra) ]
    | |- context [decide (?a < ?b)%R] =>
        first [ rewrite (decide_True (P := (a < b)%R)) by (unfold smooth, alpha; lra)
              | rewrite (decide_False (P := (a < b)%R)) by (unfold smooth, alpha; lra) ]
    end.

(** * Proofs *)

(** ** Real arithmetic *)


Lemma alpha_bounds : (0 < alpha < 1)%R.
Proof. unfold alpha; lra. Qed.

Lemma smooth_same (p : R) : smooth p p = p.
Proof. unfold smooth, alpha; lra. Qed.

Lemma smooth_pos (p q : R) : (0 < p)%R → (0 <= q)%R → (0 < smooth p q)%R.
Proof. unfold smooth, alpha; intros; nra. Qed.

Lemma ln2_pos : (0 < ln 2)%R.
Proof. rewrite <- ln_1. apply ln_increasing; lra. Qed.

(** [ln x <= x - 1], the inequality behind the sign of the divergence. *)
Lemma ln_le_sub1 (x : R) : (0 < x)%R → (ln x <= x - 1)%R.
Proof.
  intros Hx. pose proof (exp_ineq1_le (ln x)) as H.
  rewrite exp_ln in H by assumption. lra.
Qed.

Lemma fadd_0_r (a : float) : fadd a (Finite 0) = a.
Proof. destruct a as [x|]; simpl; [f_equal; lra | reflexivity]. Qed.

Lemma term_same (p : R) : p ≠ 0%R → term p p = Finite 0.
Proof.
  intros Hp. unfold term, fdiv. rewrite decide_False by assumption.
  replace (p / p)%R with 1%R by (field; assumption). simpl.
  rewrite decide_True by lra. rewrite ln_1. simpl. f_equal. unfold Rdiv. lra.
Qed.

Lemma term_finite (p q' : R) :
  (0 < p)%R → (0 < q')%R → term p q' = Finite (p * (ln (p / q') / ln 2)).
Proof.
  intros Hp Hq. unfold term, fdiv. rewrite decide_False by lra. simpl.
  rewrite decide_True; [reflexivity|]. apply Rdiv_lt_0_compat; assumption.
Qed.

(** ** The store *)

Lemma deref_lookup (σ : store) l a : σ !! l = Some a → deref σ l = a.
Proof. unfold deref. intros ->. reflexivity. Qed.

Lemma deref_insert_eq (σ : store) l a : deref (<[l := a]> σ) l = a.
Proof. unfold deref. rewrite lookup_insert_eq. reflexivity. Qed.

Lemma deref_insert_ne (σ : store) l l' a : l ≠ l' → deref (<[l := a]> σ) l' = deref σ l'.
Proof. intros Hne. unfold deref. rewrite lookup_insert_ne by assumption. reflexivity. Qed.

Lemma bind_run {A B} (m : M A) (f : A → M B) (σ : store) :
  (m ≫= f) σ = match m σ with
               | (Return a, σ') => f a σ'
               | (Raise e, σ') => (Raise e, σ')
               end.
Proof. reflexivity. Qed.

Lemma getitem_Some (σ : store) l i x :
  deref σ l !! i = Some x → getitem l i σ = (Return x, σ).
Proof. unfold getitem. intros ->. reflexivity. Qed.

Lemma getitem_None (σ : store) l i :
  deref σ l !! i = None → getitem l i σ = (Raise IndexError, σ).
Proof. unfold getitem. intros ->. reflexivity. Qed.

Lemma setitem_Some (σ : store) l i x v :
  deref σ l !! i = Some x →
  setitem l i v σ = (Return tt, <[l := <[i := v]> (deref σ l)]> σ).
Proof.
  intros H. unfold setitem. apply lookup_lt_Some in H.
  rewrite decide_True by assumption. reflexivity.
Qed.

(** ** One turn of the loop *)

Lemma KL_body_skip ip rq i acc (σ : store) :
  deref σ ip !! i = Some 0%R → KL_body ip rq i acc σ = (Return acc, σ).
Proof.
  intros H. unfold KL_body. rewrite bind_run, (getitem_Some _ _ _ _ H).
  rewrite decide_True by reflexivity. reflexivity.
Qed.

Lemma KL_body_raise ip rq i acc (σ : store) p :
  deref σ ip !! i = Some p → p ≠ 0%R → deref σ rq !! i = None →
  KL_body ip rq i acc σ = (Raise IndexError, σ).
Proof.
  intros Hp Hnz Hq. unfold KL_body. rewrite bind_run, (getitem_Some _ _ _ _ Hp).
  rewrite decide_False by assumption.
  rewrite bind_run, (getitem_None _ _ _ Hq). reflexivity.
Qed.

(** The turn that smooths: it reads [interactDist[i]] again after the
    assignment, from the store the assignment left. *)
Lemma KL_body_assign ip rq i acc (σ : store) p q :
  deref σ ip !! i = Some p → p ≠ 0%R → deref σ rq !! i = Some q →
  let σ' := <[rq := <[i := smooth p q]> (deref σ rq)]> σ in
  ∀ p', deref σ' ip !! i = Some p' →
  KL_body ip rq i acc σ = (Return (fadd acc (term p' (smooth p q))), σ').
Proof.
  intros Hp Hnz Hq σ' p' Hp'. unfold KL_body.
  rewrite bind_run, (getitem_Some _ _ _ _ Hp), decide_False by assumption.
  rewrite bind_run, (getitem_Some _ _ _ _ Hq).
  rewrite bind_run, (getitem_Some _ _ _ _ Hp).
  rewrite bind_run, (setitem_Some _ _ _ _ _ Hq). fold (smooth p q). fold σ'.
  rewrite bind_run, (getitem_Some _ _ _ _ Hp').
  rewrite bind_run, (getitem_Some _ _ _ _ Hp').
  assert (deref σ' rq !! i = Some (smooth p q)) as Hq'.
  { unfold σ'. rewrite deref_insert_eq. apply list_lookup_insert_eq.
    eapply lookup_lt_Some; eassumption. }
  rewrite bind_run, (getitem_Some _ _ _ _ Hq'). reflexivity.
Qed.

(** ** The loop *)

Lemma for_each_cons {A} i ix (body : nat → A → M A) acc (σ : store) :
  for_each (i :: ix) body acc σ
  = match body i acc σ with
    | (Return acc', σ') => for_each ix body acc' σ'
    | (Raise e, σ') => (Raise e, σ')
    end.
Proof. reflexivity. Qed.

(** Turns that give back the running sum and the store they were given
    leave the whole loop without effect. *)
Lemma for_each_fixed {A} ix (body : nat → A → M A) acc (σ : store) :
  (∀ i, i ∈ ix → body i acc σ = (Return acc, σ)) →
  for_each ix body acc σ = (Return acc, σ).
Proof.
  induction ix as [|i ix IH]; intros H; [reflexivity|].
  rewrite for_each_cons, H by (left).
  apply IH. intros j Hj. apply H. right. exact Hj.
Qed.

Lemma KL_run ip rq (σ : store) :
  KullbackLeiblerDivergence ip rq σ
  = for_each (seq 0 (length (deref σ ip))) (KL_body ip rq) (Finite 0) σ.
Proof. reflexivity. Qed.

(** A turn on two arrays with the same content (the same object or not)
    changes nothing: the smoothed entry is the entry, the term is zero. *)
Lemma KL_body_same ip rq i acc (σ : store) p :
  σ !! ip = Some p → σ !! rq = Some p → i < length p →
  KL_body ip rq i acc σ = (Return acc, σ).
Proof.
  intros Hip Hrq Hi.
  destruct (lookup_lt_is_Some_2 p i Hi) as [x Hx].
  pose proof (deref_lookup _ _ _ Hip) as Dp.
  pose proof (deref_lookup _ _ _ Hrq) as Dq.
  destruct (decide (x = 0%R)) as [->|Hnz].
  - apply KL_body_skip. rewrite Dp. exact Hx.
  - assert (<[rq := <[i := smooth x x]> (deref σ rq)]> σ = σ) as Hσ.
    { rewrite smooth_same, Dq, list_insert_id by exact Hx.
      apply insert_id. exact Hrq. }
    pose proof (KL_body_assign ip rq i acc σ x x) as H. cbv zeta in H.
    rewrite Hσ in H. rewrite (H ltac:(rewrite Dp; exact Hx) Hnz
                                ltac:(rewrite Dq; exact Hx) x
                                ltac:(rewrite Dp; exact Hx)).
    rewrite smooth_same, term_same, fadd_0_r by assumption. reflexivity.
Qed.

(** ** Two distinct arrays: the loop is [kl_sum] and [smoothed] *)

Lemma smoothed_nil_r ps : smoothed ps [] = [].
Proof. destruct ps; reflexivity. Qed.

Lemma drop_S_tail {A} (l : list A) k : drop (S k) l = tail (drop k l).
Proof.
  revert l. induction k as [|k IH]; intros [|x l]; try reflexivity.
  exact (IH l).
Qed.

Lemma take_S_head {A} (l : list A) k : take (S k) l = take k l ++ take 1 (drop k l).
Proof. rewrite take_take_drop. f_equal. lia. Qed.

Lemma drop_head_lookup {A} (l : list A) k x t : drop k l = x :: t → l !! k = Some x.
Proof.
  intros H. pose proof (lookup_drop l k 0) as E.
  rewrite H, Nat.add_0_r in E. symmetry. exact E.
Qed.

Lemma drop_insert_head {A} (l : list A) k v x t :
  drop k l = x :: t → drop k (<[k := v]> l) = v :: t.
Proof.
  intros H. rewrite drop_insert_ge by lia. rewrite H, Nat.sub_diag. reflexivity.
Qed.

Lemma KL_loop_distinct ip rq ps :
  ip ≠ rq → ∀ pre q acc (σ : store),
  σ !! ip = Some (pre ++ ps) → σ !! rq = Some q →
  for_each (seq (length pre) (length ps)) (KL_body ip rq) acc σ
  = (kl_sum ps (drop (length pre) q) acc,
     <[rq := take (length pre) q ++ smoothed ps (drop (length pre) q)]> σ).
Proof.
  intros Hne. induction ps as [|p ps IH]; intros pre q acc σ Hip Hrq.
  - cbn. rewrite take_drop, insert_id by exact Hrq. reflexivity.
  - pose proof (deref_lookup _ _ _ Hip) as Dp.
    pose proof (deref_lookup _ _ _ Hrq) as Dq.
    assert (deref σ ip !! length pre = Some p) as Hp.
    { rewrite Dp. apply list_lookup_middle. reflexivity. }
    assert (length (pre ++ [p]) = S (length pre)) as Hlen.
    { rewrite length_app. cbn. lia. }
    specialize (IH (pre ++ [p])). rewrite Hlen, <- app_assoc in IH.
    cbn [length seq]. rewrite for_each_cons.
    destruct (decide (p = 0%R)) as [Hz|Hnz].
    + subst p. rewrite KL_body_skip by exact Hp.
      rewrite (IH q acc σ Hip Hrq), drop_S_tail, take_S_head. cbn [kl_sum].
      rewrite decide_True by reflexivity.
      destruct (drop (length pre) q) as [|x t]; cbn.
      * rewrite !smoothed_nil_r, !app_nil_r. reflexivity.
      * rewrite decide_True by reflexivity. rewrite <- app_assoc. reflexivity.
    + cbn [kl_sum smoothed]. rewrite decide_False by assumption.
      destruct (drop (length pre) q) as [|x t] eqn:Hd.
      * assert (length q ≤ length pre) as Hle by (apply drop_nil_inv; exact Hd).
        rewrite (KL_body_raise ip rq _ acc σ p Hp Hnz).
        2:{ rewrite Dq. apply lookup_ge_None_2. exact Hle. }
        rewrite take_ge, app_nil_r, insert_id by assumption. reflexivity.
      * pose proof (drop_head_lookup _ _ _ _ Hd) as Hx.
        pose proof (KL_body_assign ip rq (length pre) acc σ p x) as Hstep.
        cbv zeta in Hstep. rewrite Dq in Hstep.
        rewrite (Hstep Hp Hnz Hx p); clear Hstep.
        2:{ rewrite deref_insert_ne by (intros E; apply Hne; symmetry; exact E).
            exact Hp. }
        rewrite (IH (<[length pre := smooth p x]> q)).
        2:{ rewrite lookup_insert_ne by (intros E; apply Hne; symmetry; exact E).
            exact Hip. }
        2:{ apply lookup_insert_eq. }
        rewrite drop_S_tail, take_S_head.
        rewrite (drop_insert_head _ _ _ _ _ Hd), take_insert_ge by lia.
        rewrite insert_insert_eq, decide_False by assumption.
        cbn. rewrite take_0, <- app_assoc. reflexivity.
Qed.

(** The scorer called on two distinct arrays. *)
Lemma KL_distinct ip rq (σ : store) p q :
  ip ≠ rq → σ !! ip = Some p → σ !! rq = Some q →
  KullbackLeiblerDivergence ip rq σ
  = (kl_sum p q (Finite 0), <[rq := smoothed p q]> σ).
Proof.
  intros Hne Hip Hrq. rewrite KL_run, (deref_lookup _ _ _ Hip).
  apply (KL_loop_distinct ip rq p Hne [] q (Finite 0) σ Hip Hrq).
Qed.

(** ** What [smoothed] holds *)

Lemma smoothed_length ps qs : length (smoothed ps qs) = length qs.
Proof.
  revert qs. induction ps as [|p ps IH]; intros [|q qs]; cbn; try reflexivity.
  rewrite IH. reflexivity.
Qed.

Lemma smoothed_lookup ps qs c pc qc :
  ps !! c = Some pc → qs !! c = Some qc →
  smoothed ps qs !! c = Some (if decide (pc = 0%R) then qc else smooth pc qc).
Proof.
  revert qs c. induction ps as [|p ps IH]; intros [|q qs] [|c]; cbn;
    try discriminate.
  - intros [= ->] [= ->]. reflexivity.
  - apply IH.
Qed.

(** Past the end of [interactDist], [recommendedDist] is not touched. *)
Lemma smoothed_lookup_ge ps qs c :
  length ps ≤ c → smoothed ps qs !! c = qs !! c.
Proof.
  revert qs c. induction ps as [|p ps IH]; intros [|q qs] [|c]; cbn;
    try reflexivity; try lia.
  intros H. apply IH. lia.
Qed.

Lemma smoothed_zeros ps qs : Forall (λ x, x = 0%R) ps → smoothed ps qs = qs.
Proof.
  intros H. revert qs. induction H as [|p ps -> _ IH]; intros [|q qs]; cbn;
    try reflexivity.
  rewrite decide_True, IH by reflexivity. reflexivity.
Qed.

(** ** What [kl_sum] returns *)

Lemma gibbs_term (p s : R) :
  (0 < p)%R → (0 < s)%R → (p - s <= p * (ln (p / s) / ln 2) * ln 2)%R.
Proof.
  intros Hp Hs. pose proof ln2_pos as H2.
  replace (p * (ln (p / s) / ln 2) * ln 2)%R with (p * ln (p / s))%R
    by (field; lra).
  assert (0 < s / p)%R as Hsp by (apply Rdiv_lt_0_compat; assumption).
  pose proof (ln_le_sub1 (s / p) Hsp) as Hln.
  replace (p / s)%R with (/ (s / p))%R by (field; lra).
  rewrite ln_Rinv by assumption.
  assert (p * ln (s / p) <= p * (s / p - 1))%R as Hm
    by (apply Rmult_le_compat_l; lra).
  replace (p * (s / p - 1))%R with (s - p)%R in Hm by (field; lra).
  lra.
Qed.

Lemma kl_sum_valid ps : ∀ qs a,
  length ps = length qs →
  Forall (λ x, 0 <= x)%R ps → Forall (λ x, 0 <= x)%R qs →
  kl_sum ps qs (Finite a) = Return (Finite (a + kl_real ps qs)).
Proof.
  induction ps as [|p ps IH]; intros [|q qs] a Hlen Hp Hq; try discriminate.
  - cbn. do 2 f_equal. lra.
  - apply Forall_cons in Hp as [Hp0 Hp]. apply Forall_cons in Hq as [Hq0 Hq].
    injection Hlen as Hlen. cbn [kl_sum kl_real tail].
    destruct (decide (p = 0%R)) as [_|Hnz].
    + rewrite IH by assumption. do 2 f_equal. lra.
    + rewrite term_finite by (try apply smooth_pos; lra).
      cbn [fadd]. rewrite IH by assumption. do 2 f_equal. lra.
Qed.

Lemma kl_real_lower ps : ∀ qs,
  length ps = length qs →
  Forall (λ x, 0 <= x)%R ps → Forall (λ x, 0 <= x)%R qs →
  (Rsum ps - ((1 - alpha) * Rsum qs + alpha * Rsum ps) <= kl_real ps qs * ln 2)%R.
Proof.
  induction ps as [|p ps IH]; intros [|q qs] Hlen Hp Hq; try discriminate.
  - cbn. lra.
  - apply Forall_cons in Hp as [Hp0 Hp]. apply Forall_cons in Hq as [Hq0 Hq].
    injection Hlen as Hlen. specialize (IH qs Hlen Hp Hq).
    cbn [kl_real Rsum foldr]. fold (Rsum ps). fold (Rsum qs).
    pose proof alpha_bounds as Ha.
    destruct (decide (p = 0%R)) as [->|Hnz].
    + nra.
    + assert (0 < p)%R as Hpos by lra.
      pose proof (gibbs_term p (smooth p q) Hpos (smooth_pos p q Hpos Hq0)) as Hg.
      unfold smooth in Hg at 1. nra.
Qed.

Lemma kl_real_nonneg ps qs :
  length ps = length qs → is_distribution ps → is_distribution qs →
  (0 <= kl_real ps qs)%R.
Proof.
  intros Hlen [Hp Sp] [Hq Sq].
  pose proof (kl_real_lower ps qs Hlen Hp Hq) as H.
  rewrite Sp, Sq in H. pose proof ln2_pos. nra.
Qed.

(** Entries of [recommendedDist] where [interactDist] is zero are not read. *)
Lemma kl_sum_insert_zero ps : ∀ qs j v acc,
  ps !! j = Some 0%R → kl_sum ps (<[j := v]> qs) acc = kl_sum ps qs acc.
Proof.
  induction ps as [|p ps IH]; intros qs j v acc Hj; [discriminate|].
  destruct j as [|j]; cbn in Hj.
  - injection Hj as ->. destruct qs; cbn; rewrite !decide_True by reflexivity;
      reflexivity.
  - cbn. destruct qs as [|q qs]; [reflexivity|]. cbn.
    destruct (decide (p = 0%R)); apply IH; exact Hj.
Qed.

(** [kl_sum] raises exactly when [interactDist] has a non-zero entry at an
    index [recommendedDist] does not have. *)
Lemma kl_sum_raise ps : ∀ qs acc,
  kl_sum ps qs acc = Raise IndexError
  ↔ ∃ i x, length qs ≤ i ∧ ps !! i = Some x ∧ x ≠ 0%R.
Proof.
  induction ps as [|p ps IH]; intros qs acc; cbn.
  - split; [discriminate|]. intros (i & x & _ & H & _). discriminate.
  - destruct (decide (p = 0%R)) as [->|Hnz].
    + rewrite IH. split.
      * intros (i & x & Hi & Hx & Hnz). exists (S i), x. repeat split; try assumption.
        destruct qs; cbn in *; lia.
      * intros (i & x & Hi & Hx & Hnz). destruct i as [|i]; cbn in Hx.
        { injection Hx as <-. contradiction. }
        exists i, x. repeat split; try assumption. destruct qs; cbn in *; lia.
    + destruct qs as [|q qs].
      * split; [|reflexivity]. intros _. exists 0, p. cbn. repeat split; [lia|assumption].
      * rewrite IH. split.
        { intros (i & x & Hi & Hx & Hx0). exists (S i), x. cbn. repeat split; try assumption. lia. }
        { intros (i & x & Hi & Hx & Hx0). destruct i as [|i]; cbn in *; [lia|].
          exists i, x. repeat split; try assumption. lia. }
Qed.

Lemma kl_sum_total ps qs acc :
  kl_sum ps qs acc = Raise IndexError ∨ ∃ s, kl_sum ps qs acc = Return s.
Proof.
  destruct (kl_sum ps qs acc) as [s|[]]; [right; exists s|left]; reflexivity.
Qed.

(** Entries of [recommendedDist] past the end of [interactDist] are not read. *)
Lemma kl_sum_take ps : ∀ qs acc,
  kl_sum ps (take (length ps) qs) acc = kl_sum ps qs acc.
Proof.
  induction ps as [|p ps IH]; intros qs acc; [reflexivity|].
  destruct qs as [|q qs]; [reflexivity|]. cbn.
  destruct (decide (p = 0%R)); apply IH.
Qed.

(** ** Two arrays with the same content *)

Lemma KL_same ip rq (σ : store) p :
  σ !! ip = Some p → σ !! rq = Some p →
  KullbackLeiblerDivergence ip rq σ = (Return (Finite 0), σ).
Proof.
  intros Hip Hrq. rewrite KL_run, (deref_lookup _ _ _ Hip).
  apply for_each_fixed. intros i Hi.
  apply (KL_body_same ip rq i (Finite 0) σ p Hip Hrq).
  apply elem_of_seq in Hi. lia.
Qed.

(** ** Bounds on the base-2 logarithm of 100 *)

Lemma ln_pow_lt (a b : Z) (m n : nat) :
  (0 < a)%Z → (0 < b)%Z → (a ^ Z.of_nat m < b ^ Z.of_nat n)%Z →
  (IZR (Z.of_nat m) * ln (IZR a) < IZR (Z.of_nat n) * ln (IZR b))%R.
Proof.
  intros Ha Hb H.
  rewrite <- !INR_IZR_INZ, <- !ln_pow by (apply IZR_lt; assumption).
  rewrite !pow_IZR. apply ln_increasing.
  - apply IZR_lt. apply Z.pow_pos_nonneg; lia.
  - apply IZR_lt. exact H.
Qed.

Lemma log2_100_bounds : (485 / 73 < ln 100 / ln 2 < 4272 / 643)%R.
Proof.
  pose proof ln2_pos as H2.
  assert (ln 100 = 2 * ln 10)%R as ->.
  { replace 100%R with (10 ^ 2)%R by lra. rewrite ln_pow by lra. simpl. lra. }
  pose proof (ln_pow_lt 2 10 485 146 ltac:(lia) ltac:(lia) ltac:(vm_compute; reflexivity)) as Lo.
  pose proof (ln_pow_lt 10 2 643 2136 ltac:(lia) ltac:(lia) ltac:(vm_compute; reflexivity)) as Hi.
  change (Z.of_nat 485) with 485%Z in Lo. change (Z.of_nat 146) with 146%Z in Lo.
  change (Z.of_nat 643) with 643%Z in Hi. change (Z.of_nat 2136) with 2136%Z in Hi.
  split.
  - apply Rmult_lt_reg_r with (r := ln 2); [assumption|].
    replace (2 * ln 10 / ln 2 * ln 2)%R with (2 * ln 10)%R by (field; lra). lra.
  - apply Rmult_lt_reg_r with (r := ln 2); [assumption|].
    replace (2 * ln 10 / ln 2 * ln 2)%R with (2 * ln 10)%R by (field; lra). lra.
Qed.

(** ** Running the scorer on given arrays *)

Lemma two_arrays_fst p q : two_arrays p q !! 0 = Some p.
Proof. apply lookup_insert_eq. Qed.

Lemma two_arrays_snd p q : two_arrays p q !! 1 = Some q.
Proof.
  unfold two_arrays. rewrite lookup_insert_ne by lia. apply lookup_singleton_eq.
Qed.

Lemma two_arrays_after p q q' : <[1 := q']> (two_arrays p q) = two_arrays p q'.
Proof.
  unfold two_arrays. rewrite insert_insert_ne by lia.
  rewrite insert_singleton_eq. reflexivity.
Qed.

Lemma KL_two_arrays p q :
  KullbackLeiblerDivergence 0 1 (two_arrays p q)
  = (kl_sum p q (Finite 0), two_arrays p (smoothed p q)).
Proof.
  rewrite (KL_distinct 0 1 _ p q ltac:(lia) (two_arrays_fst p q) (two_arrays_snd p q)).
  rewrite two_arrays_after. reflexivity.
Qed.

(** * The claims *)

(** C10. For every vector [q], the scorer called with an all-zero [p]
    returns [0.0], raises nothing, and leaves the store, hence every entry
    of [q], as it was: every index takes the zero-skip branch and the
    initial running sum is returned.  No check that [p] is a distribution
    is made. *)
Theorem C10_all_zero_p (σ : store) (ip rq : loc) (p q : list R) :
  σ !! ip = Some p → σ !! rq = Some q → Forall (λ x, x = 0%R) p →
  result_of (KullbackLeiblerDivergence ip rq) σ = Return (Finite 0)
  ∧ store_after (KullbackLeiblerDivergence ip rq) σ = σ
  ∧ store_after (KullbackLeiblerDivergence ip rq) σ !! rq = Some q.
Proof.
  intros Hip Hrq Hz.
  assert (KullbackLeiblerDivergence ip rq σ = (Return (Finite 0), σ)) as H.
  { rewrite KL_run, (deref_lookup _ _ _ Hip). apply for_each_fixed.
    intros i Hi. apply KL_body_skip. rewrite (deref_lookup _ _ _ Hip).
    apply elem_of_seq in Hi.
    destruct (lookup_lt_is_Some_2 p i ltac:(lia)) as [x Hx].
    rewrite Hx. f_equal. rewrite Forall_lookup in Hz. exact (Hz i x Hx). }
  unfold result_of, store_after. rewrite H. cbn. auto.
Qed.

Lemma C10_all_zero_p_witness :
  result_of (KullbackLeiblerDivergence 0 1) (two_arrays [0; 0; 0]%R [1/2; 0; 1/2]%R)
  = Return (Finite 0).
Proof.
  apply (C10_all_zero_p (two_arrays [0; 0; 0]%R [1/2; 0; 1/2]%R) 0 1
           [0; 0; 0]%R [1/2; 0; 1/2]%R).
  - apply two_arrays_fst.
  - apply two_arrays_snd.
  - repeat constructor.
Defined.

(** ** The arithmetic on binary64 numbers *)

Section Binary64Facts.
Import PrimFloat.
Variable np_log2 : float → float.

(** When every entry rounds back, the score of a vector against itself is
    exactly zero and the array is rewritten with the values it had. *)
Lemma kl_sum64_rounds_back (p : list float) :
  np_log2 1%float = 0%float → Forall rounds_back p →
  kl_sum64 np_log2 p p 0%float = Return 0%float ∧ smoothed64 p p = p.
Proof.
  intros Hlog. induction 1 as [|x ps Hx _ [IH1 IH2]]; [split; reflexivity|].
  cbn [kl_sum64 smoothed64 tail]. destruct (x =? 0)%float eqn:E.
  - rewrite IH1, IH2. split; reflexivity.
  - destruct Hx as [Hz|(H1 & H2 & H3)]; [congruence|].
    unfold term64. rewrite H1, H2, Hlog, H3.
    change (0 + 0)%float with 0%float. rewrite IH1, IH2. split; reflexivity.
Qed.

(** Reading [recommendedDist] never fails when it is long enough. *)
Lemma kl_sum64_returns (ps : list float) : ∀ qs klDive,
  length ps ≤ length qs → ∃ v, kl_sum64 np_log2 ps qs klDive = Return v.
Proof.
  induction ps as [|p ps IH]; intros qs klDive Hlen; [eexists; reflexivity|].
  destruct qs as [|q qs]; [cbn in Hlen; lia|]. cbn in Hlen. cbn [kl_sum64 tail].
  destruct (p =? 0)%float; apply IH; lia.
Qed.
End Binary64Facts.

Section Binary64Claims.
Import PrimFloat.

(** C1, as stated, fails on binary64 numbers: for the equal distributions
    [p = q = [0.25, 0.75]] the loop stores [0.7499999999999999] for
    [0.75], the ratio it takes the logarithm of is [1.0000000000000002],
    not [1], and with the values [np.log2] has at these two points the
    score is about [2.4e-16], not [0]. *)
Lemma C1_binary64_counterexample :
  smoothed64 [0.25; 0.75]%float [0.25; 0.75]%float
  = [0.25; 0.7499999999999999]%float
  ∧ (0.75 / smooth64 0.75 0.75)%float = 1.0000000000000002%float
  ∧ ∀ np_log2 : float → float,
      np_log2 1%float = 0%float →
      np_log2 1.0000000000000002%float = 3.203426503814917e-16%float →
      kl_sum64 np_log2 [0.25; 0.75]%float [0.25; 0.75]%float 0%float
      = Return 2.402569877861188e-16%float.
Proof.
  split; [reflexivity|]. split; [reflexivity|].
  intros np_log2 H1 H2. vm_compute. rewrite H1, H2. reflexivity.
Qed.

(** C1, as the code has it.  For two equal distributions (the same object
    or two objects) the value the scorer computes is exactly [0] in exact
    arithmetic: the smoothed entry is the entry of [p] itself, so
    [recommendedDist] still holds [p], and every term is
    [p(c) * log2 1 = 0].  On binary64 numbers it is exactly [0] whenever
    every non-zero entry rounds back to itself when smoothed ([np.log2]
    being exact at [1]); the array is then left with the values it had. *)
Theorem C1_self_divergence_zero_when_exact :
  (∀ (σ : store) (ip rq : loc) (p q : list R),
     σ !! ip = Some p → σ !! rq = Some q → p = q → is_distribution p →
     result_of (KullbackLeiblerDivergence ip rq) σ = Return (Finite 0)
     ∧ store_after (KullbackLeiblerDivergence ip rq) σ !! rq = Some p)
  ∧ (∀ (np_log2 : float → float) (p : list float),
       np_log2 1%float = 0%float → Forall rounds_back p →
       kl_sum64 np_log2 p p 0%float = Return 0%float ∧ smoothed64 p p = p).
Proof.
  split.
  - intros σ ip rq p q Hip Hrq <- _. unfold result_of, store_after.
    rewrite (KL_same ip rq σ p Hip Hrq). cbn. auto.
  - intros np_log2 p. apply kl_sum64_rounds_back.
Qed.

Lemma C1_self_divergence_zero_when_exact_witness :
  (result_of (KullbackLeiblerDivergence 0 1)
     (two_arrays [1/2; 1/2; 0]%R [1/2; 1/2; 0]%R) = Return (Finite 0)
   ∧ result_of (KullbackLeiblerDivergence 0 0) (one_array [1/2; 1/2; 0]%R)
     = Return (Finite 0))
  ∧ kl_sum64 (λ _, 0%float) [0.5; 0.5; 0]%float [0.5; 0.5; 0]%float 0%float
    = Return 0%float.
Proof.
  destruct C1_self_divergence_zero_when_exact as [HR HF]. split; [split|].
  - apply (HR _ 0 1 [1/2; 1/2; 0]%R [1/2; 1/2; 0]%R).
    + apply two_arrays_fst.
    + apply two_arrays_snd.
    + reflexivity.
    + split; [repeat (constructor; [lra|]); constructor | unfold Rsum; cbn [foldr]; lra].
  - apply (HR _ 0 0 [1/2; 1/2; 0]%R [1/2; 1/2; 0]%R).
    + apply lookup_singleton_eq.
    + apply lookup_singleton_eq.
    + reflexivity.
    + split; [repeat (constructor; [lra|]); constructor | unfold Rsum; cbn [foldr]; lra].
  - apply (HF (λ _, 0%float) [0.5; 0.5; 0]%float).
    + reflexivity.
    + constructor; [right; repeat split; reflexivity|].
      constructor; [right; repeat split; reflexivity|].
      constructor; [left; reflexivity | constructor].
Defined.

(** C2, as stated, fails on binary64 numbers.  For [p = [1.0, 5e-324]]
    and [q = [1.0, 0.0]] the product [0.01 * 5e-324] underflows, so the
    smoothed entry is [0] where [p] is positive, the ratio is [inf], and
    the score is [inf].  For the distributions
    [p = [332448, 716128] / 2^20] and [q = p -/+ 130 / 2^40] the ratios
    round so that, with the values [np.log2] has at them, the score is
    about [-1.4e-16], below zero. *)
Lemma C2_binary64_counterexample :
  (smoothed64 [1; 5e-324]%float [1; 0]%float = [1; 0]%float
   ∧ (5e-324 / smooth64 5e-324 0)%float = infinity
   ∧ ∀ np_log2 : float → float,
       np_log2 1%float = 0%float → np_log2 infinity = infinity →
       kl_sum64 np_log2 [1; 5e-324]%float [1; 0]%float 0%float
       = Return infinity)
  ∧ ((0.317047119140625 + 0.682952880859375)%float = 1%float
     ∧ (0.3170471190223907 + 0.6829528809776093)%float = 1%float
     ∧ (-1.3608959958452617e-16 <? 0)%float = true
     ∧ ∀ np_log2 : float → float,
         np_log2 1.0000000003691942%float = 5.326346857189347e-10%float →
         np_log2 0.9999999998286089%float = (-2.4726512396970427e-10)%float →
         kl_sum64 np_log2 [0.317047119140625; 0.682952880859375]%float
           [0.3170471190223907; 0.6829528809776093]%float 0%float
         = Return (-1.3608959958452617e-16)%float).
Proof.
  split; [split; [reflexivity | split; [reflexivity|]]|].
  - intros np_log2 H1 Hinf. vm_compute in Hinf |- *. rewrite H1, Hinf.
    reflexivity.
  - split; [reflexivity|]. split; [reflexivity|]. split; [reflexivity|].
    intros np_log2 H0 H1. vm_compute. rewrite H0, H1. reflexivity.
Qed.

(** C2, as the code has it.  For two distributions of the same length the
    sum the scorer computes is, in exact arithmetic, a finite number that
    is not negative, and wherever [p(c) > 0] the entry the loop assigned,
    [(1 - alpha) * q(c) + alpha * p(c)], is what [recommendedDist] holds
    afterwards and is strictly positive.  On binary64 numbers the call
    returns a number without raising, whatever the entries are. *)
Theorem C2_finite_nonnegative_in_exact_arithmetic :
  (∀ (σ : store) (ip rq : loc) (p q : list R),
     σ !! ip = Some p → σ !! rq = Some q → length p = length q →
     is_distribution p → is_distribution q →
     (∃ r, result_of (KullbackLeiblerDivergence ip rq) σ = Return (Finite r)
           ∧ (0 <= r)%R)
     ∧ (∃ q', store_after (KullbackLeiblerDivergence ip rq) σ !! rq = Some q'
           ∧ ∀ c pc qc, p !! c = Some pc → q !! c = Some qc → (0 < pc)%R →
               q' !! c = Some (smooth pc qc) ∧ (0 < smooth pc qc)%R))
  ∧ (∀ (np_log2 : float → float) (p q : list float),
       length p = length q → ∃ v, kl_sum64 np_log2 p q 0%float = Return v).
Proof.
  split.
  - intros σ ip rq p q Hip Hrq Hlen Dp Dq. unfold result_of, store_after.
    destruct (decide (ip = rq)) as [->|Hne].
    + assert (p = q) as <- by congruence.
      rewrite (KL_same rq rq σ p Hip Hrq). cbn. split.
      * exists 0%R. split; [reflexivity | lra].
      * exists p. split; [exact Hrq|]. intros c pc qc Hpc Hqc Hpos.
        assert (qc = pc) as -> by congruence.
        rewrite smooth_same. auto.
    + rewrite (KL_distinct ip rq σ p q Hne Hip Hrq). cbn.
      destruct Dp as [Pp Sp]. destruct Dq as [Pq Sq]. split.
      * exists (0 + kl_real p q)%R. split.
        { apply kl_sum_valid; assumption. }
        { pose proof (kl_real_nonneg p q Hlen (conj Pp Sp) (conj Pq Sq)). lra. }
      * exists (smoothed p q). split; [apply lookup_insert_eq|].
        intros c pc qc Hpc Hqc Hpos.
        rewrite (smoothed_lookup p q c pc qc Hpc Hqc).
        rewrite decide_False by lra. split; [reflexivity|].
        apply smooth_pos; [assumption|].
        rewrite Forall_lookup in Pq. exact (Pq c qc Hqc).
  - intros np_log2 p q Hlen. apply kl_sum64_returns. lia.
Qed.

Lemma C2_finite_nonnegative_in_exact_arithmetic_witness :
  (∃ r, result_of (KullbackLeiblerDivergence 0 1)
          (two_arrays [1; 0; 0]%R [0; 1; 0]%R) = Return (Finite r)
        ∧ (0 <= r)%R)
  ∧ ∃ v, kl_sum64 (λ _, 0%float) [1; 0; 0]%float [0; 1; 0]%float 0%float
         = Return v.
Proof.
  destruct C2_finite_nonnegative_in_exact_arithmetic as [HR HF]. split.
  - apply (HR _ 0 1 [1; 0; 0]%R [0; 1; 0]%R).
    + apply two_arrays_fst.
    + apply two_arrays_snd.
    + reflexivity.
    + split; [repeat (constructor; [lra|]); constructor | unfold Rsum; cbn [foldr]; lra].
    + split; [repeat (constructor; [lra|]); constructor | unfold Rsum; cbn [foldr]; lra].
  - apply (HF (λ _, 0%float) [1; 0; 0]%float [0; 1; 0]%float). reflexivity.
Defined.
End Binary64Claims.

(** C3. A category with [p(c) = 0] adds nothing to the score whatever
    [q(c)] is: writing any value [v] into [q] at an index where [p] is
    zero leaves the outcome of the scorer (score or exception) the same. *)
Theorem C3_zero_categories_ignored (σ : store) (ip rq : loc) (p q : list R)
    (j : nat) (v : R) :
  σ !! ip = Some p → σ !! rq = Some q → p !! j = Some 0%R →
  result_of (KullbackLeiblerDivergence ip rq) (<[rq := <[j := v]> q]> σ)
  = result_of (KullbackLeiblerDivergence ip rq) σ.
Proof.
  intros Hip Hrq Hj. unfold result_of.
  destruct (decide (ip = rq)) as [->|Hne].
  - assert (p = q) as <- by congruence.
    rewrite (KL_same rq rq σ p Hip Hrq).
    rewrite (KL_same rq rq _ (<[j := v]> p)) by apply lookup_insert_eq.
    reflexivity.
  - rewrite (KL_distinct ip rq σ p q Hne Hip Hrq).
    rewrite (KL_distinct ip rq _ p (<[j := v]> q) Hne).
    + cbn. apply kl_sum_insert_zero. exact Hj.
    + rewrite lookup_insert_ne by (intros E; apply Hne; symmetry; exact E).
      exact Hip.
    + apply lookup_insert_eq.
Qed.

Lemma C3_zero_categories_ignored_witness :
  result_of (KullbackLeiblerDivergence 0 1)
    (<[1 := <[1 := 0%R]> [0; 1; 0]%R]> (two_arrays [1; 0; 0]%R [0; 1; 0]%R))
  = result_of (KullbackLeiblerDivergence 0 1) (two_arrays [1; 0; 0]%R [0; 1; 0]%R).
Proof.
  apply (C3_zero_categories_ignored _ 0 1 [1; 0; 0]%R [0; 1; 0]%R 1 0%R).
  - apply two_arrays_fst.
  - apply two_arrays_snd.
  - reflexivity.
Defined.

(** C4, as the code has it.  On [p = [1.0, 0.0, 0.0]] and
    [q = [0.0, 1.0, 0.0]] the scorer returns [1.0 * log2 (1.0 / 0.01)],
    which is 6.6439 to four decimals, with the logarithm in base 2
    ([log2 2 = 1]).  It smooths only the category where [p] is not zero:
    [recommendedDist] ends as [[0.01, 1.0, 0.0]]. *)
Theorem C4_scenario_score :
  (∃ s, result_of (KullbackLeiblerDivergence 0 1)
          (two_arrays [1; 0; 0]%R [0; 1; 0]%R) = Return (Finite s)
        ∧ s = (1 * (ln (1 / (1 / 100)) / ln 2))%R
        ∧ (Rabs (s - 66439 / 10000) < 1 / 10000)%R)
  ∧ store_after (KullbackLeiblerDivergence 0 1)
      (two_arrays [1; 0; 0]%R [0; 1; 0]%R) !! 1 = Some [1 / 100; 1; 0]%R
  ∧ log2 (Finite 2) = Finite 1.
Proof.
  unfold result_of, store_after. rewrite KL_two_arrays. cbn.
  real_decide. rewrite term_finite by (unfold smooth, alpha; lra).
  replace (smooth 1 0) with (1 / 100)%R by (unfold smooth, alpha; lra).
  cbn. split; [|split].
  - eexists. split; [reflexivity|]. split; [lra|].
    replace (1 / (1 / 100))%R with 100%R by lra.
    pose proof log2_100_bounds as [Lo Hi].
    apply Rabs_def1; lra.
  - rewrite two_arrays_snd. reflexivity.
  - real_decide. f_equal. pose proof ln2_pos. field. lra.
Qed.

(** C4, the part that fails: the scorer never computes [0.99] for the
    second category, which it skips because [p] is zero there. *)
Lemma C4_smoothed_vector_counterexample :
  store_after (KullbackLeiblerDivergence 0 1)
    (two_arrays [1; 0; 0]%R [0; 1; 0]%R) !! 1
  ≠ Some [1 / 100; 99 / 100; 0]%R.
Proof.
  unfold store_after. rewrite KL_two_arrays. cbn. rewrite two_arrays_snd.
  real_decide. intros [= _ H]. lra.
Qed.

(** C5, the code at the scenario of C4.  The call overwrites
    [recommendedDist[0]] with [0.01], so the caller's [q] is no longer
    [[0.0, 1.0, 0.0]], and scoring the same pair of objects again returns
    a smaller value than the first call did. *)
Theorem C5_scorer_overwrites_recommendedDist :
  store_after (KullbackLeiblerDivergence 0 1) (two_arrays [1; 0; 0]%R [0; 1; 0]%R)
  = two_arrays [1; 0; 0]%R [1 / 100; 1; 0]%R
  ∧ ∃ s1 s2,
      result_of (KullbackLeiblerDivergence 0 1)
        (two_arrays [1; 0; 0]%R [0; 1; 0]%R) = Return (Finite s1)
      ∧ result_of (KullbackLeiblerDivergence 0 1)
          (store_after (KullbackLeiblerDivergence 0 1)
             (two_arrays [1; 0; 0]%R [0; 1; 0]%R)) = Return (Finite s2)
      ∧ (s2 < s1)%R.
Proof.
  unfold result_of, store_after. rewrite KL_two_arrays. cbn [fst snd].
  assert (smoothed [1; 0; 0]%R [0; 1; 0]%R = [1 / 100; 1; 0]%R) as ->.
  { cbn. real_decide. f_equal. unfold smooth, alpha. lra. }
  split; [reflexivity|]. rewrite KL_two_arrays. cbn. real_decide.
  rewrite !term_finite by (unfold smooth, alpha; lra). cbn.
  do 2 eexists. split; [reflexivity|]. split; [reflexivity|].
  pose proof ln2_pos as H2.
  assert (ln (1 / smooth 1 (1 / 100)) < ln (1 / smooth 1 0))%R as Hln.
  { apply ln_increasing; unfold smooth, alpha.
    - apply Rdiv_lt_0_compat; lra.
    - replace (1 / ((1 - 1 / 100) * (1 / 100) + 1 / 100 * 1))%R
        with (10000 / 199)%R by (field; lra).
      replace (1 / ((1 - 1 / 100) * 0 + 1 / 100 * 1))%R with 100%R by (field; lra).
      lra. }
  assert (ln (1 / smooth 1 (1 / 100)) / ln 2 < ln (1 / smooth 1 0) / ln 2)%R.
  { apply Rmult_lt_compat_r; [apply Rinv_0_lt_compat; assumption | assumption]. }
  lra.
Qed.

(** C8, as stated, fails: on [p = [1.0]] and [q = [1.0, 0.0]], of lengths
    one and two, the scorer raises nothing and returns a score. *)
Lemma C8_dimension_mismatch_counterexample :
  length [1%R] ≠ length [1%R; 0%R]
  ∧ result_of (KullbackLeiblerDivergence 0 1) (two_arrays [1%R] [1%R; 0%R])
    = Return (Finite 0).
Proof.
  split; [cbn; lia|]. unfold result_of. rewrite KL_two_arrays. cbn.
  real_decide. rewrite smooth_same, term_same by lra. cbn.
  do 2 f_equal. lra.
Qed.

(** C8, as the code has it.  The scorer makes no dimension check.  On
    vectors of different lengths it raises [IndexError] exactly when [p]
    has a non-zero entry at an index [q] does not have, and returns a
    score otherwise; when [q] is the longer one it always returns a score,
    the one it returns for [q] cut to the length of [p].  Either way
    [recommendedDist] holds the entries smoothed so far: the exception
    comes after the numeric work on the earlier indices. *)
Theorem C8_no_dimension_check (σ : store) (ip rq : loc) (p q : list R) :
  σ !! ip = Some p → σ !! rq = Some q → length p ≠ length q →
  (result_of (KullbackLeiblerDivergence ip rq) σ = Raise IndexError
   ↔ ∃ i x, length q ≤ i ∧ p !! i = Some x ∧ x ≠ 0%R)
  ∧ (result_of (KullbackLeiblerDivergence ip rq) σ = Raise IndexError
     ∨ ∃ s, result_of (KullbackLeiblerDivergence ip rq) σ = Return s)
  ∧ (length p < length q →
     ∃ s, result_of (KullbackLeiblerDivergence ip rq) σ = Return s
          ∧ result_of (KullbackLeiblerDivergence ip rq)
              (<[rq := take (length p) q]> σ) = Return s)
  ∧ store_after (KullbackLeiblerDivergence ip rq) σ !! rq = Some (smoothed p q).
Proof.
  intros Hip Hrq Hlen.
  assert (ip ≠ rq) as Hne by (intros ->; apply Hlen; congruence).
  unfold result_of, store_after.
  rewrite (KL_distinct ip rq σ p q Hne Hip Hrq). cbn [fst snd].
  split; [apply kl_sum_raise|]. split; [apply kl_sum_total|].
  split; [|apply lookup_insert_eq].
  intros Hlt.
  rewrite (KL_distinct ip rq _ p (take (length p) q) Hne).
  2:{ rewrite lookup_insert_ne by (intros E; apply Hne; symmetry; exact E).
      exact Hip. }
  2:{ apply lookup_insert_eq. }
  cbn [fst]. rewrite kl_sum_take.
  destruct (kl_sum_total p q (Finite 0)) as [Hr|[s Hs]].
  - apply kl_sum_raise in Hr as (i & x & Hi & Hx & _).
    apply lookup_lt_Some in Hx. lia.
  - exists s. rewrite Hs. auto.
Qed.

Lemma C8_no_dimension_check_witness :
  result_of (KullbackLeiblerDivergence 0 1) (two_arrays [0; 1]%R [1%R])
  = Raise IndexError
  ↔ ∃ i x, length [1%R] ≤ i ∧ [0; 1]%R !! i = Some x ∧ x ≠ 0%R.
Proof.
  apply (C8_no_dimension_check (two_arrays [0; 1]%R [1%R]) 0 1 [0; 1]%R [1%R]).
  - apply two_arrays_fst.
  - apply two_arrays_snd.
  - cbn. lia.
Defined.

(** ** The aggregator: selecting rows *)

Lemma get_row_valid (P : matrix) (i : Z) :
  valid_item P i → ∃ r, get_row P i = Return r ∧ r ∈ rows P.
Proof.
  unfold valid_item, get_row, norm_index. intros Hi.
  assert (∀ k, k < length (rows P) →
    ∃ r, (match rows P !! k with
          | Some r => Return r
          | None => Raise IndexError
          end) = Return r ∧ r ∈ rows P) as Hk.
  { intros k Hlt. destruct (lookup_lt_is_Some_2 _ _ Hlt) as [r Hr].
    exists r. rewrite Hr. split; [reflexivity|].
    apply list_elem_of_lookup. exists k. exact Hr. }
  destruct (decide (0 ≤ i < Z.of_nat (length (rows P)))%Z) as [H0|H0].
  - cbn. apply Hk. lia.
  - rewrite decide_True by lia. cbn. apply Hk. lia.
Qed.

Lemma get_row_row (P : matrix) (i : Z) :
  valid_item P i → get_row P i = Return (row P i) ∧ row P i ∈ rows P.
Proof.
  intros Hi. destruct (get_row_valid P i Hi) as (r & Hr & Hin).
  unfold row. rewrite Hr. auto.
Qed.

Lemma take_rows_valid (P : matrix) (itemList : list Z) :
  Forall (valid_item P) itemList →
  take_rows P itemList = Return (map (row P) itemList).
Proof.
  induction 1 as [|i l Hi _ IH]; [reflexivity|].
  cbn. destruct (get_row_row P i Hi) as [-> _]. cbn. rewrite IH. reflexivity.
Qed.

(** ** The aggregator: column sums *)


Lemma vec_add_length u v : length u = length v → length (vec_add u v) = length u.
Proof. intros H. unfold vec_add. rewrite length_zip_with. lia. Qed.



Lemma foldl_vec_add_length rs : ∀ acc,
  Forall (λ r, length r = length acc) rs →
  length (foldl vec_add acc rs) = length acc.
Proof.
  induction rs as [|r rs IH]; intros acc H; [reflexivity|].
  apply Forall_cons in H as [Hr H]. cbn.
  rewrite IH; rewrite vec_add_length by congruence; [reflexivity|].
  exact H.
Qed.







Lemma map_fdiv_finite (k : R) l :
  k ≠ 0%R → map (λ s, fdiv s k) l = map Finite (map (λ s, s / k)%R l).
Proof.
  intros Hk. rewrite map_map. apply map_ext. intros s. unfold fdiv.
  rewrite decide_False by assumption. reflexivity.
Qed.

Lemma INR_length_pos {A} (l : list A) : l ≠ [] → (0 < INR (length l))%R.
Proof. intros H. destruct l; [contradiction|]. apply lt_0_INR. cbn. lia. Qed.

(** ** The aggregator on a non-empty list of valid ids *)

Section Aggregator.
Variable P : matrix.
Variable itemList : list Z.
Hypothesis P_wf : wf_matrix P.
Hypothesis items_valid : Forall (valid_item P) itemList.

Lemma selected_rows_width :
  Forall (λ r, length r = length (replicate (ncols P) 0%R)) (map (row P) itemList).
Proof.
  rewrite length_replicate. apply Forall_map.
  eapply Forall_impl; [exact items_valid|]. intros i Hi. cbn.
  destruct (get_row_row P i Hi) as [_ Hin].
  unfold wf_matrix in P_wf. rewrite Forall_forall in P_wf. exact (P_wf _ Hin).
Qed.

Lemma sum_axis0_length :
  length (sum_axis0 (ncols P) (map (row P) itemList)) = ncols P.
Proof.
  unfold sum_axis0. rewrite foldl_vec_add_length by exact selected_rows_width.
  apply length_replicate.
Qed.



Hypothesis items_nonempty : itemList ≠ [].

Lemma ComputeGenreDistribution_valid :
  ComputeGenreDistribution itemList P
  = Return (map Finite
              (map (λ s, s / INR (length itemList))%R
                   (sum_axis0 (ncols P) (map (row P) itemList)))).
Proof.
  unfold ComputeGenreDistribution. rewrite take_rows_valid by exact items_valid.
  cbn. unfold mret, result_ret. f_equal. apply map_fdiv_finite.
  pose proof (INR_length_pos itemList items_nonempty). lra.
Qed.
End Aggregator.




Lemma P_scenario_wf : wf_matrix P_scenario.
Proof. repeat constructor. Qed.

Lemma P_scenario_valid_0_1 : Forall (valid_item P_scenario) [0; 1]%Z.
Proof. repeat constructor; cbn; lia. Qed.








(** C9, as stated, fails: on the empty item list the aggregator raises
    nothing; it returns a vector whose entries are not finite. *)
Lemma C9_empty_item_list_counterexample :
  ComputeGenreDistribution [] P_scenario = Return (replicate 19 NonFinite).
Proof.
  unfold ComputeGenreDistribution. cbn. unfold mret, result_ret. f_equal.
  unfold fdiv. rewrite decide_True by reflexivity. reflexivity.
Qed.

(** C9, as the code has it.  Called with an empty item list the
    aggregator makes no check and raises no exception: the sum over no
    rows is the zero vector of width [ncols], each entry is divided by
    [len(itemList) = 0], and the result is a vector of [ncols] entries
    [0/0], none of them finite. *)
Theorem C9_empty_item_list_returns_nonfinite (P : matrix) :
  ComputeGenreDistribution [] P = Return (replicate (ncols P) NonFinite).
Proof.
  unfold ComputeGenreDistribution. cbn. unfold mret, result_ret. f_equal.
  unfold sum_axis0. cbn [foldl]. induction (ncols P) as [|n IH]; [reflexivity|].
  cbn [replicate map]. rewrite IH. unfold fdiv.
  rewrite decide_True by reflexivity. reflexivity.
Qed.

(** * Further properties of the scorer *)

Lemma smoothed_lookup_zero ps qs c :
  ps !! c = Some 0%R → smoothed ps qs !! c = qs !! c.
Proof.
  revert qs c. induction ps as [|p ps IH]; intros [|q qs] [|c]; cbn;
    try discriminate; try reflexivity.
  - intros [= ->]. rewrite decide_True by reflexivity. reflexivity.
  - apply IH.
Qed.

(** X1. What a call on two distinct arrays writes, whether it returns or
    raises: no array other than [recommendedDist] changes (so
    [interactDist] does not); [recommendedDist] keeps its length; its
    entries where [interactDist] is zero, or past the end of
    [interactDist], are as before; each entry where [interactDist] is not
    zero has been replaced by the smoothed value. *)
Theorem X1_scorer_frame (σ : store) (ip rq : loc) (p q : list R) :
  ip ≠ rq → σ !! ip = Some p → σ !! rq = Some q →
  (∀ l, l ≠ rq → store_after (KullbackLeiblerDivergence ip rq) σ !! l = σ !! l)
  ∧ ∃ q', store_after (KullbackLeiblerDivergence ip rq) σ !! rq = Some q'
      ∧ length q' = length q
      ∧ (∀ i, p !! i = Some 0%R ∨ length p ≤ i → q' !! i = q !! i)
      ∧ (∀ i pi qi, p !! i = Some pi → pi ≠ 0%R → q !! i = Some qi →
           q' !! i = Some (smooth pi qi)).
Proof.
  intros Hne Hip Hrq. unfold store_after.
  rewrite (KL_distinct ip rq σ p q Hne Hip Hrq). cbn [snd]. split.
  - intros l Hl. apply lookup_insert_ne. intros E. apply Hl. symmetry. exact E.
  - exists (smoothed p q). split; [apply lookup_insert_eq|].
    split; [apply smoothed_length|]. split.
    + intros i [Hz|Hge]; [apply smoothed_lookup_zero | apply smoothed_lookup_ge];
        assumption.
    + intros i pi qi Hpi Hnz Hqi. rewrite (smoothed_lookup p q i pi qi Hpi Hqi).
      rewrite decide_False by assumption. reflexivity.
Qed.

Lemma X1_scorer_frame_witness :
  store_after (KullbackLeiblerDivergence 0 1)
    (two_arrays [1/2; 0; 1/2]%R [1/4; 1/4; 1/2; 0]%R) !! 0
  = two_arrays [1/2; 0; 1/2]%R [1/4; 1/4; 1/2; 0]%R !! 0.
Proof.
  apply (X1_scorer_frame (two_arrays [1/2; 0; 1/2]%R [1/4; 1/4; 1/2; 0]%R) 0 1
           [1/2; 0; 1/2]%R [1/4; 1/4; 1/2; 0]%R).
  - lia.
  - apply two_arrays_fst.
  - apply two_arrays_snd.
  - lia.
Defined.

(** ** A long enough [recommendedDist] *)

Lemma kl_sum_returns ps qs acc :
  length ps ≤ length qs → ∃ s, kl_sum ps qs acc = Return s.
Proof.
  intros Hlen. destruct (kl_sum_total ps qs acc) as [Hr|Hs]; [|exact Hs].
  apply kl_sum_raise in Hr as (i & x & Hi & Hx & _).
  apply lookup_lt_Some in Hx. lia.
Qed.

(** X3. When [recommendedDist] is at least as long as [interactDist]
    (the same object included) no index is out of range: the call raises
    no [IndexError], it returns a number, finite or not. *)
Theorem X3_scorer_no_index_error (σ : store) (ip rq : loc) (p q : list R) :
  σ !! ip = Some p → σ !! rq = Some q → length p ≤ length q →
  ∃ s, result_of (KullbackLeiblerDivergence ip rq) σ = Return s.
Proof.
  intros Hip Hrq Hlen. unfold result_of.
  destruct (decide (ip = rq)) as [->|Hne].
  - assert (p = q) as <- by congruence.
    rewrite (KL_same rq rq σ p Hip Hrq). eexists. reflexivity.
  - rewrite (KL_distinct ip rq σ p q Hne Hip Hrq). cbn [fst].
    apply kl_sum_returns. exact Hlen.
Qed.

Lemma X3_scorer_no_index_error_witness :
  ∃ s, result_of (KullbackLeiblerDivergence 0 1)
         (two_arrays [1/2; 1/2]%R [-1; 0; 7]%R) = Return s.
Proof.
  apply (X3_scorer_no_index_error _ 0 1 [1/2; 1/2]%R [-1; 0; 7]%R).
  - apply two_arrays_fst.
  - apply two_arrays_snd.
  - cbn. lia.
Defined.

(** ** An upper bound *)









(** ** The score is not symmetric *)

(** X7. Swapping the two arguments can change the score: there are two
    distributions of the same length whose score one way round is strictly
    smaller than the other way round. *)
Theorem X7_scorer_asymmetric :
  ∃ (p q : list R) (r1 r2 : R),
    is_distribution p ∧ is_distribution q ∧ length p = length q
    ∧ result_of (KullbackLeiblerDivergence 0 1) (two_arrays p q) = Return (Finite r1)
    ∧ result_of (KullbackLeiblerDivergence 0 1) (two_arrays q p) = Return (Finite r2)
    ∧ (r1 < r2)%R.
Proof.
  assert (Forall (λ x, 0 <= x)%R [1; 0]%R) as P1
    by (repeat (constructor; [lra|]); constructor).
  assert (Forall (λ x, 0 <= x)%R [1/2; 1/2]%R) as P2
    by (repeat (constructor; [lra|]); constructor).
  exists [1; 0]%R, [1/2; 1/2]%R.
  exists (0 + kl_real [1; 0]%R [1/2; 1/2]%R)%R, (0 + kl_real [1/2; 1/2]%R [1; 0]%R)%R.
  split; [split; [exact P1 | unfold Rsum; cbn [foldr]; lra]|].
  split; [split; [exact P2 | unfold Rsum; cbn [foldr]; lra]|].
  split; [reflexivity|]. unfold result_of. rewrite !KL_two_arrays. cbn [fst].
  split; [apply kl_sum_valid; [reflexivity | assumption | assumption]|].
  split; [apply kl_sum_valid; [reflexivity | assumption | assumption]|].
  cbn [kl_real]. real_decide.
  replace (1 / smooth 1 (1 / 2))%R with (200 / 101)%R
    by (unfold smooth, alpha; field).
  replace (1 / 2 / smooth (1 / 2) 1)%R with (100 / 199)%R
    by (unfold smooth, alpha; field).
  replace (1 / 2 / smooth (1 / 2) 0)%R with 100%R
    by (unfold smooth, alpha; field).
  pose proof ln2_pos as H2.
  assert (ln (200 / 101) + ln (200 / 101) < ln (100 / 199) + ln 100)%R as H.
  { rewrite <- !ln_mult by lra. apply ln_increasing; lra. }
  apply Rmult_lt_reg_r with (r := (2 * ln 2)%R); [lra|].
  field_simplify; lra.
Qed.

(** * Further properties of the aggregator *)

Lemma get_row_invalid (P : matrix) (i : Z) :
  ¬ valid_item P i → get_row P i = Raise IndexError.
Proof.
  unfold valid_item, get_row, norm_index. intros Hi.
  rewrite decide_False by lia. rewrite decide_False by lia. reflexivity.
Qed.

Lemma valid_item_dec (P : matrix) (i : Z) : valid_item P i ∨ ¬ valid_item P i.
Proof.
  unfold valid_item.
  destruct (decide (- Z.of_nat (length (rows P)) ≤ i < Z.of_nat (length (rows P)))%Z);
    auto.
Qed.

Lemma take_rows_cases (P : matrix) (itemList : list Z) :
  (take_rows P itemList = Raise IndexError
   ∧ Exists (λ i, ¬ valid_item P i) itemList)
  ∨ Forall (valid_item P) itemList.
Proof.
  induction itemList as [|i l IH]; [right; constructor|].
  destruct (valid_item_dec P i) as [Hi|Hi].
  - destruct IH as [[Hr He]|Hf].
    + left. split; [|right; exact He].
      cbn. destruct (get_row_row P i Hi) as [-> _]. cbn. rewrite Hr. reflexivity.
    + right. constructor; assumption.
  - left. split; [|left; exact Hi].
    cbn. rewrite (get_row_invalid P i Hi). reflexivity.
Qed.

Lemma ComputeGenreDistribution_raises (itemList : list Z) (P : matrix) :
  ComputeGenreDistribution itemList P = Raise IndexError
  ↔ Exists (λ i, ¬ valid_item P i) itemList.
Proof.
  unfold ComputeGenreDistribution.
  destruct (take_rows_cases P itemList) as [[Hr He]|Hf].
  - rewrite Hr. cbn. split; [intros _; exact He | reflexivity].
  - rewrite (take_rows_valid P itemList Hf). cbn. split; [discriminate|].
    intros He. apply Exists_exists in He as (i & Hin & Hi).
    rewrite Forall_forall in Hf. exfalso. exact (Hi (Hf i Hin)).
Qed.

(** X8. For ids that fit a signed 64-bit integer, the aggregator raises
    [IndexError] exactly when some listed id is outside [-n, n) for the
    [n] rows of [P] (an id in [-n, 0) is accepted and counts from the last
    row); otherwise it returns a vector with one entry per column of
    [P]. *)
Theorem X8_aggregator_raises_iff_int64 (itemList : list Z) (P : matrix) :
  Forall (λ i, - 2 ^ 63 ≤ i < 2 ^ 63)%Z itemList →
  (ComputeGenreDistribution itemList P = Raise IndexError
   ↔ Exists (λ i, ¬ valid_item P i) itemList)
  ∧ (wf_matrix P → Forall (valid_item P) itemList →
     ∃ v, ComputeGenreDistribution itemList P = Return v ∧ length v = ncols P).
Proof.
  intros _. split; [apply ComputeGenreDistribution_raises|].
  intros Hwf Hf. unfold ComputeGenreDistribution.
  rewrite (take_rows_valid P itemList Hf). cbn. eexists. split; [reflexivity|].
  rewrite length_map. apply sum_axis0_length; assumption.
Qed.

Lemma X8_aggregator_raises_iff_int64_witness :
  ComputeGenreDistribution [0; 3]%Z P_scenario = Raise IndexError
  ↔ Exists (λ i, ¬ valid_item P_scenario i) [0; 3]%Z.
Proof.
  apply (X8_aggregator_raises_iff_int64 [0; 3]%Z P_scenario).
  repeat (constructor; [lia|]). constructor.
Defined.



(** * The two procedures together *)

(** X12. The notebook's use of the two procedures.  The aggregates of two
    non-empty lists of valid ids over the same [P] both have one entry per
    column of [P], so scoring one against the other meets no index out of
    range: the call raises no [IndexError] and returns a number. *)
Theorem X12_aggregates_can_be_scored (hist recs : list Z) (P : matrix) :
  wf_matrix P → hist ≠ [] → recs ≠ [] →
  Forall (valid_item P) hist → Forall (valid_item P) recs →
  ∃ p q : list R,
    ComputeGenreDistribution hist P = Return (map Finite p)
    ∧ ComputeGenreDistribution recs P = Return (map Finite q)
    ∧ length p = ncols P ∧ length q = ncols P
    ∧ ∀ (σ : store) (ip rq : loc), σ !! ip = Some p → σ !! rq = Some q →
        ∃ s, result_of (KullbackLeiblerDivergence ip rq) σ = Return s.
Proof.
  intros Hwf Hnh Hnr Hvh Hvr. do 2 eexists.
  split; [apply ComputeGenreDistribution_valid; assumption|].
  split; [apply ComputeGenreDistribution_valid; assumption|].
  split; [rewrite length_map; apply sum_axis0_length; assumption|].
  split; [rewrite length_map; apply sum_axis0_length; assumption|].
  intros σ ip rq Hip Hrq. unfold result_of.
  destruct (decide (ip = rq)) as [->|Hne].
  - rewrite Hip in Hrq. injection Hrq as Hpq.
    rewrite (KL_same rq rq σ _ Hip Hip). eexists. reflexivity.
  - rewrite (KL_distinct ip rq σ _ _ Hne Hip Hrq). cbn [fst].
    apply kl_sum_returns.
    rewrite !length_map, !sum_axis0_length by assumption. reflexivity.
Qed.

Lemma X12_aggregates_can_be_scored_witness :
  ∃ p q : list R,
    ComputeGenreDistribution [0; 1]%Z P_scenario = Return (map Finite p)
    ∧ ComputeGenreDistribution [2]%Z P_scenario = Return (map Finite q)
    ∧ length p = 19 ∧ length q = 19
    ∧ ∀ (σ : store) (ip rq : loc), σ !! ip = Some p → σ !! rq = Some q →
        ∃ s, result_of (KullbackLeiblerDivergence ip rq) σ = Return s.
Proof.
  apply (X12_aggregates_can_be_scored [0; 1]%Z [2]%Z P_scenario).
  - exact P_scenario_wf.
  - discriminate.
  - discriminate.
  - exact P_scenario_valid_0_1.
  - constructor; [unfold valid_item; cbn; lia | constructor].
Defined.

(** * Scoring the same pair again and again *)

(** X13. Each call smooths [recommendedDist] once more: after [n] calls
    on the same two arrays, [interactDist] is as it was and at every index
    where it is not zero [recommendedDist] holds the entry it had before
    the first call with the assignment
    [(1 - alpha) * recommendedDist[i] + alpha * interactDist[i]] applied
    to it [n] times. *)
Theorem X13_repeated_scoring_compounds (n : nat) (σ : store) (ip rq : loc)
    (p q : list R) :
  ip ≠ rq → σ !! ip = Some p → σ !! rq = Some q →
  score_repeatedly n ip rq σ !! ip = Some p
  ∧ ∃ qn, score_repeatedly n ip rq σ !! rq = Some qn
      ∧ length qn = length q
      ∧ ∀ i pi qi, p !! i = Some pi → q !! i = Some qi → pi ≠ 0%R →
          qn !! i = Some (Nat.iter n (smooth pi) qi).
Proof.
  intros Hne. revert σ q. induction n as [|n IH]; intros σ q Hip Hrq.
  - cbn. split; [exact Hip|]. exists q. split; [exact Hrq|]. split; [reflexivity|].
    intros i pi qi _ Hqi _. exact Hqi.
  - cbn [score_repeatedly]. unfold store_after at 1 2.
    rewrite (KL_distinct ip rq σ p q Hne Hip Hrq). cbn [snd].
    destruct (IH (<[rq := smoothed p q]> σ) (smoothed p q)) as (Hp' & qn & Hqn & Hlen & Hent).
    { rewrite lookup_insert_ne by (intros E; apply Hne; symmetry; exact E). exact Hip. }
    { apply lookup_insert_eq. }
    split; [exact Hp'|]. exists qn. split; [exact Hqn|].
    split; [rewrite Hlen; apply smoothed_length|].
    intros i pi qi Hpi Hqi Hnz.
    rewrite (Hent i pi (smooth pi qi) Hpi); [|
      rewrite (smoothed_lookup p q i pi qi Hpi Hqi), decide_False by assumption;
      reflexivity | exact Hnz].
    rewrite Nat.iter_succ_r. reflexivity.
Qed.

Lemma X13_repeated_scoring_compounds_witness :
  score_repeatedly 2 0 1 (two_arrays [1; 0]%R [0; 1]%R) !! 0 = Some [1; 0]%R.
Proof.
  apply (X13_repeated_scoring_compounds 2 (two_arrays [1; 0]%R [0; 1]%R) 0 1
           [1; 0]%R [0; 1]%R).
  - lia.
  - apply two_arrays_fst.
  - apply two_arrays_snd.
Defined.
